(** * c10/util/Logging.h: enforcement macros, comparison diagnostics,
      one-shot API usage logging and the DDP logging record.

    The header consists of macros and inline functions on top of a handful
    of functions that it only declares (their bodies live in Logging.cpp
    and StringUtil.h).  The declared functions are collected in type
    classes; everything the header itself defines is written over an
    arbitrary instance, and a second instance, modelled from the
    specification, fixes what the out-of-line functions do. *)

From Stdlib Require Import ZArith String List Floats.SpecFloat.
From stdpp Require Import gmap strings list pretty.

Open Scope string_scope.

(** ** Messages and printable arguments *)

(** A value that can be streamed with [operator<<]. *)
Class Printable (T : Type) := render : T -> string.

#[export] Instance Printable_string : Printable string := fun s => s.
#[export] Instance Printable_Z : Printable Z := fun z => pretty z.
#[export] Instance Printable_nat : Printable nat := fun n => pretty n.

(** One element of a variadic argument pack [__VA_ARGS__] / [Args...]. *)
Inductive Arg : Type :=
| arg {T : Type} {P : Printable T} (x : T).

Definition render_arg (a : Arg) : string :=
  match a with
  | arg x => render x
  end.

(** The three message types the [ThrowEnforce*NotMet] overloads accept:
    [const std::string&], [const char*] and
    [detail::CompileTimeEmptyString]. *)
Inductive Msg : Type :=
| MsgString (s : string)
| MsgCStr (s : string)
| MsgEmpty.

(** The text of a message argument, i.e. its conversion to [std::string]. *)
Definition msg_text (m : Msg) : string :=
  match m with
  | MsgString s | MsgCStr s => s
  | MsgEmpty => ""
  end.

(** ** Comparison operators and operand expressions *)

Inductive CmpOp : Type := EQ | NE | LE | LT | GE | GT.

(** The operator token, as [#op] stringifies it. *)
Definition op_token (op : CmpOp) : string :=
  match op with
  | EQ => "=="
  | NE => "!="
  | LE => "<="
  | LT => "<"
  | GE => ">="
  | GT => ">"
  end.

(** [lhs_ op rhs_] for operand types [T1] and [T2]. *)
Class Comparable (T1 T2 : Type) := apply_op : CmpOp -> T1 -> T2 -> bool.

#[export] Instance Comparable_Z : Comparable Z Z := fun op x y =>
  match op with
  | EQ => Z.eqb x y
  | NE => negb (Z.eqb x y)
  | LE => Z.leb x y
  | LT => Z.ltb x y
  | GE => Z.geb x y
  | GT => Z.gtb x y
  end.

#[export] Instance Comparable_string : Comparable string string := fun op x y =>
  match op with
  | EQ => String.eqb x y
  | NE => negb (String.eqb x y)
  | LE => String.leb x y
  | LT => String.ltb x y
  | GE => String.leb y x
  | GT => String.ltb y x
  end.

(** An expression of type [T] evaluated in a program state [W]: it yields
    a value and the state after its side effects.  The value is the one
    computed at the moment of evaluation, as for an operand that yields a
    temporary. *)
Definition Expr (W T : Type) : Type := W -> T * W.

(** A macro operand: the expression together with its source text. *)
Record Operand (W T : Type) : Type := {
  src : string;
  eval : Expr W T
}.
Arguments src {W T} _.
Arguments eval {W T} _.

(** The arguments of a function call are indeterminately sequenced: either
    one may be evaluated first. *)
Inductive ArgOrder : Type := LhsFirst | RhsFirst.

(** An operand without side effects that evaluates to [v]. *)
Definition pure {W T : Type} (v : T) : Expr W T := fun w => (v, w).

(** Evaluation counters for the two operands of a comparison, kept next to
    the state [St] that the operand expressions themselves act on. *)
Record Counters : Type := { lhs_evals : nat; rhs_evals : nat }.

Definition counted_lhs {St T : Type} (e : Expr St T) : Expr (St * Counters) T :=
  fun w =>
    let (v, s') := e (fst w) in
    (v, (s', {| lhs_evals := S (lhs_evals (snd w));
                rhs_evals := rhs_evals (snd w) |})).

Definition counted_rhs {St T : Type} (e : Expr St T) : Expr (St * Counters) T :=
  fun w =>
    let (v, s') := e (fst w) in
    (v, (s', {| lhs_evals := lhs_evals (snd w);
                rhs_evals := S (rhs_evals (snd w)) |})).

Module Enforce.

Record SourceLocation : Type := { file : string; line : Z }.

(** Modelled from the spec: the exception classes thrown by the
    out-of-line functions (c10/util/Exception.h) are missing.  Section 7
    names three kinds of failure. *)
Inductive ErrorKind : Type :=
| InvariantViolation
| NonFiniteValue
| UnconditionalFailure.

(** Modelled from the spec: [c10::Error] (c10/util/Exception.h) is
    missing.  Section 3, EnforcementError: location, condition text,
    message and optional caller identity, here tagged with the kind of
    section 7.  [caller] is the [const void*] identity, [None] for
    [nullptr]. *)
Record Error : Type := {
  kind : ErrorKind;
  location : SourceLocation;
  condition_text : string;
  message : string;
  caller : option Z
}.

(** Result of running a statement that may throw. *)
Inductive Outcome : Type :=
| Returned
| Raised (e : Error).

(** Functions that Logging.h declares or uses without defining them
    (lines 65-77, 88-100, and [c10::str] of StringUtil.h).  The
    [[noreturn]] functions are modelled by the error they throw. *)
Class Extern : Type := {
  ThrowEnforceNotMet_string :
    string -> Z -> string -> string -> option Z -> Error;
  ThrowEnforceNotMet_cstr :
    string -> Z -> string -> string -> option Z -> Error;
  ThrowEnforceFiniteNotMet_string :
    string -> Z -> string -> string -> option Z -> Error;
  ThrowEnforceFiniteNotMet_cstr :
    string -> Z -> string -> string -> option Z -> Error;
  c10_str : list Arg -> Msg
}.

Section Header.
Context `{Extern}.

(** Lines 79-86: the [CompileTimeEmptyString] overload forwards the
    literal [""], which selects the [const char*] overload. *)
Definition ThrowEnforceNotMet_empty
    (file : string) (line : Z) (condition : string) (caller : option Z)
  : Error :=
  ThrowEnforceNotMet_cstr file line condition "" caller.

(** Lines 102-109. *)
Definition ThrowEnforceFiniteNotMet_empty
    (file : string) (line : Z) (condition : string) (caller : option Z)
  : Error :=
  ThrowEnforceFiniteNotMet_cstr file line condition "" caller.

(** Overload resolution on the static type of the message argument. *)
Definition ThrowEnforceNotMet
    (file : string) (line : Z) (condition : string) (msg : Msg)
    (caller : option Z) : Error :=
  match msg with
  | MsgString s => ThrowEnforceNotMet_string file line condition s caller
  | MsgCStr s => ThrowEnforceNotMet_cstr file line condition s caller
  | MsgEmpty => ThrowEnforceNotMet_empty file line condition caller
  end.

Definition ThrowEnforceFiniteNotMet
    (file : string) (line : Z) (condition : string) (msg : Msg)
    (caller : option Z) : Error :=
  match msg with
  | MsgString s => ThrowEnforceFiniteNotMet_string file line condition s caller
  | MsgCStr s => ThrowEnforceFiniteNotMet_cstr file line condition s caller
  | MsgEmpty => ThrowEnforceFiniteNotMet_empty file line condition caller
  end.

(** Lines 133-139.  [file] and [line] stand for [__FILE__] and
    [__LINE__], [condition_src] for the stringified [#condition]. *)
Definition CAFFE_ENFORCE
    (file : string) (line : Z) (condition : bool) (condition_src : string)
    (args : list Arg) : Outcome :=
  if negb condition
  then Raised (ThrowEnforceNotMet file line condition_src (c10_str args) None)
  else Returned.

(** Lines 141-147. *)
Definition CAFFE_ENFORCE_FINITE
    (file : string) (line : Z) (condition : bool) (condition_src : string)
    (args : list Arg) : Outcome :=
  if negb condition
  then Raised
         (ThrowEnforceFiniteNotMet file line condition_src (c10_str args) None)
  else Returned.

(** Lines 149-155: [this] is passed as the caller. *)
Definition CAFFE_ENFORCE_WITH_CALLER
    (this : Z) (file : string) (line : Z) (condition : bool)
    (condition_src : string) (args : list Arg) : Outcome :=
  if negb condition
  then Raised
         (ThrowEnforceNotMet file line condition_src (c10_str args) (Some this))
  else Returned.

(** Lines 157-158. *)
Definition CAFFE_THROW (file : string) (line : Z) (args : list Arg) : Outcome :=
  Raised (ThrowEnforceNotMet file line "" (c10_str args) None).

(** Lines 189-197 ([enforce_detail]): the two overloads, selected by
    whether the pack [args] is empty; the result is a [std::string]. *)
Definition enforceFailMsgImpl {T1 T2 : Type} `{Printable T1, Printable T2}
    (x : T1) (y : T2) (args : list Arg) : string :=
  match args with
  | [] => msg_text (c10_str [arg x; arg " vs "; arg y])
  | _ => msg_text (c10_str ([arg x; arg " vs "; arg y; arg ". "] ++ args))
  end.

Section Comparison.
Context {W T1 T2 : Type} `{Printable T1, Printable T2, Comparable T1 T2}.

(** Lines 199-214: a lambda over [lhs_] and [rhs_], called once with the
    two operand expressions as its arguments. *)
Definition CAFFE_ENFORCE_THAT_IMPL
    (file : string) (line : Z) (order : ArgOrder) (op : CmpOp)
    (lhs : Expr W T1) (rhs : Expr W T2) (expr : string) (args : list Arg)
  : W -> Outcome * W :=
  fun w =>
    let lambda := fun (lhs_ : T1) (rhs_ : T2) =>
      if negb (apply_op op lhs_ rhs_)
      then Raised
             (ThrowEnforceNotMet file line expr
                (MsgString (enforceFailMsgImpl lhs_ rhs_ args)) None)
      else Returned in
    match order with
    | LhsFirst =>
        let (l, w1) := lhs w in
        let (r, w2) := rhs w1 in
        (lambda l r, w2)
    | RhsFirst =>
        let (r, w1) := rhs w in
        let (l, w2) := lhs w1 in
        (lambda l r, w2)
    end.

(** Lines 216-232: the same with [this] captured and passed on. *)
Definition CAFFE_ENFORCE_THAT_IMPL_WITH_CALLER
    (this : Z) (file : string) (line : Z) (order : ArgOrder) (op : CmpOp)
    (lhs : Expr W T1) (rhs : Expr W T2) (expr : string) (args : list Arg)
  : W -> Outcome * W :=
  fun w =>
    let lambda := fun (lhs_ : T1) (rhs_ : T2) =>
      if negb (apply_op op lhs_ rhs_)
      then Raised
             (ThrowEnforceNotMet file line expr
                (MsgString (enforceFailMsgImpl lhs_ rhs_ args)) (Some this))
      else Returned in
    match order with
    | LhsFirst =>
        let (l, w1) := lhs w in
        let (r, w2) := rhs w1 in
        (lambda l r, w2)
    | RhsFirst =>
        let (r, w1) := rhs w in
        let (l, w2) := lhs w1 in
        (lambda l r, w2)
    end.

(** The expression text [#x " " #op " " #y]. *)
Definition expr_text (op : CmpOp) (x : Operand W T1) (y : Operand W T2)
  : string :=
  src x ++ " " ++ op_token op ++ " " ++ src y.

(** Lines 235-236. *)
Definition CAFFE_ENFORCE_THAT
    (file : string) (line : Z) (order : ArgOrder) (op : CmpOp)
    (lhs : Operand W T1) (rhs : Operand W T2) (args : list Arg)
  : W -> Outcome * W :=
  CAFFE_ENFORCE_THAT_IMPL file line order op (eval lhs) (eval rhs)
    (expr_text op lhs rhs) args.

(** Lines 238-239. *)
Definition CAFFE_ENFORCE_BINARY_OP
    (file : string) (line : Z) (order : ArgOrder) (op : CmpOp)
    (x : Operand W T1) (y : Operand W T2) (args : list Arg)
  : W -> Outcome * W :=
  CAFFE_ENFORCE_THAT_IMPL file line order op (eval x) (eval y)
    (expr_text op x y) args.

(** Lines 240-251. *)
Definition CAFFE_ENFORCE_EQ file line order :=
  CAFFE_ENFORCE_BINARY_OP file line order EQ.
Definition CAFFE_ENFORCE_NE file line order :=
  CAFFE_ENFORCE_BINARY_OP file line order NE.
Definition CAFFE_ENFORCE_LE file line order :=
  CAFFE_ENFORCE_BINARY_OP file line order LE.
Definition CAFFE_ENFORCE_LT file line order :=
  CAFFE_ENFORCE_BINARY_OP file line order LT.
Definition CAFFE_ENFORCE_GE file line order :=
  CAFFE_ENFORCE_BINARY_OP file line order GE.
Definition CAFFE_ENFORCE_GT file line order :=
  CAFFE_ENFORCE_BINARY_OP file line order GT.

(** Lines 253-254. *)
Definition CAFFE_ENFORCE_BINARY_OP_WITH_CALLER
    (this : Z) (file : string) (line : Z) (order : ArgOrder) (op : CmpOp)
    (x : Operand W T1) (y : Operand W T2) (args : list Arg)
  : W -> Outcome * W :=
  CAFFE_ENFORCE_THAT_IMPL_WITH_CALLER this file line order op (eval x) (eval y)
    (expr_text op x y) args.

(** Lines 255-266. *)
Definition CAFFE_ENFORCE_EQ_WITH_CALLER this file line order :=
  CAFFE_ENFORCE_BINARY_OP_WITH_CALLER this file line order EQ.
Definition CAFFE_ENFORCE_NE_WITH_CALLER this file line order :=
  CAFFE_ENFORCE_BINARY_OP_WITH_CALLER this file line order NE.
Definition CAFFE_ENFORCE_LE_WITH_CALLER this file line order :=
  CAFFE_ENFORCE_BINARY_OP_WITH_CALLER this file line order LE.
Definition CAFFE_ENFORCE_LT_WITH_CALLER this file line order :=
  CAFFE_ENFORCE_BINARY_OP_WITH_CALLER this file line order LT.
Definition CAFFE_ENFORCE_GE_WITH_CALLER this file line order :=
  CAFFE_ENFORCE_BINARY_OP_WITH_CALLER this file line order GE.
Definition CAFFE_ENFORCE_GT_WITH_CALLER this file line order :=
  CAFFE_ENFORCE_BINARY_OP_WITH_CALLER this file line order GT.

End Comparison.

End Header.

(** *** Operands bound by reference

    The lambda of lines 202 and 219 takes its parameters as
    [const auto&].  A prvalue operand is materialised into a temporary,
    which holds the value from the moment the operand was evaluated; an
    lvalue operand binds the parameter to the object it designates, and
    the body reads that object when it runs, after both operands have been
    evaluated.  [CAFFE_ENFORCE_THAT_IMPL] above is the macro on operands
    that yield temporaries; the definitions below cover both kinds. *)

(** What a lambda parameter is bound to. *)
Inductive Bound (W T : Type) : Type :=
| Temporary (v : T)
| Object (read : W -> T).
Arguments Temporary {W T} _.
Arguments Object {W T} _.

(** The value seen through a parameter in the state [w]. *)
Definition deref {W T : Type} (b : Bound W T) (w : W) : T :=
  match b with
  | Temporary v => v
  | Object read => read w
  end.

(** An operand expression: its side effects and what it yields. *)
Definition RefExpr (W T : Type) : Type := W -> Bound W T * W.

(** A prvalue operand, given as the by-value expression [e]. *)
Definition prvalue {W T : Type} (e : Expr W T) : RefExpr W T :=
  fun w => let (v, w') := e w in (Temporary v, w').

(** A named object as operand: naming it has no side effect. *)
Definition variable {W T : Type} (read : W -> T) : RefExpr W T :=
  fun w => (Object read, w).

Section ByReference.
Context `{Extern} {W T1 T2 : Type}
  `{Printable T1, Printable T2, Comparable T1 T2}.

(** Lines 199-214 with the parameters as references; the body runs in the
    state that the evaluation of both operands has left. *)
Definition CAFFE_ENFORCE_THAT_IMPL_ref
    (file : string) (line : Z) (order : ArgOrder) (op : CmpOp)
    (lhs : RefExpr W T1) (rhs : RefExpr W T2) (expr : string)
    (args : list Arg) : W -> Outcome * W :=
  fun w =>
    let lambda := fun (lhs_ : Bound W T1) (rhs_ : Bound W T2) (w' : W) =>
      if negb (apply_op op (deref lhs_ w') (deref rhs_ w'))
      then Raised
             (ThrowEnforceNotMet file line expr
                (MsgString
                   (enforceFailMsgImpl (deref lhs_ w') (deref rhs_ w') args))
                None)
      else Returned in
    match order with
    | LhsFirst =>
        let (l, w1) := lhs w in
        let (r, w2) := rhs w1 in
        (lambda l r w2, w2)
    | RhsFirst =>
        let (r, w1) := rhs w in
        let (l, w2) := lhs w1 in
        (lambda l r w2, w2)
    end.

End ByReference.

(** The operands [i++] (a prvalue: the old value, and [i] incremented)
    and [i] (the variable itself) over an [int i]. *)
Definition post_increment : Expr Z Z := fun i => (i, (i + 1)%Z).
Definition the_counter : Z -> Z := fun i => i.

(** Modelled from the spec: the bodies of [ThrowEnforceNotMet] and
    [ThrowEnforceFiniteNotMet] (Logging.cpp) are missing.  Section 4.2: a
    failed check constructs an EnforcementError from the arguments and
    raises it; [enforceFinite] differs by error kind only. *)
Definition spec_throw (k : ErrorKind)
    (file : string) (line : Z) (condition msg : string) (caller : option Z)
  : Error :=
  {| kind := k;
     location := {| file := file; line := line |};
     condition_text := condition;
     message := msg;
     caller := caller |}.

(** Modelled from the spec: the concatenation [c10::str] performs
    (section 4.1), renderings in order and no separator. *)
Definition concat_args (args : list Arg) : string :=
  String.concat "" (map render_arg args).

(** Modelled from the spec: [c10::str] (StringUtil.h) is missing.
    Section 4.1: the concatenation of the arguments, and the empty-string
    sentinel for the empty argument list. *)
Definition spec_str (args : list Arg) : Msg :=
  match args with
  | [] => MsgEmpty
  | _ => MsgString (concat_args args)
  end.

(** Modelled from the spec: the out-of-line functions as sections 4.1,
    4.2 and 7 describe them; the two message overloads of each function
    build the same error. *)
#[export] Instance spec_enforce : Extern := {|
  ThrowEnforceNotMet_string := spec_throw InvariantViolation;
  ThrowEnforceNotMet_cstr := spec_throw InvariantViolation;
  ThrowEnforceFiniteNotMet_string := spec_throw NonFiniteValue;
  ThrowEnforceFiniteNotMet_cstr := spec_throw NonFiniteValue;
  c10_str := spec_str
|}.

End Enforce.

(** ** One-shot API usage logging (lines 268-286, 362-365) *)

Module Usage.

(** A usage logger, [std::function<void(const std::string&)>].  Only
    its identity matters here: what the model observes of the rest of the
    process is which logger was called with which context. *)
Inductive Logger : Type :=
| NoOp
| UserLogger (id : nat).

(** Functions declared on lines 285-286 and 364; [G] is the process-wide
    state behind them.  Each call returns normally; an initialiser that
    exits by an exception is the subject of [Throwing] below. *)
Class Extern (G : Type) : Type := {
  SetAPIUsageLogger : Logger -> G -> G;
  LogAPIUsage : string -> G -> G;
  LogAPIUsageFakeReturn : string -> G -> bool * G
}.

(** Program state: the block-scope statics [logFlag] that the macro
    declares, one per call site (a key is absent until the variable has been
    initialised), and the state of the logging library. *)
Record State (G : Type) : Type := {
  statics : gmap nat bool;
  global : G
}.
Arguments statics {G} _.
Arguments global {G} _.

(** The API calls a program can make; [CallOnce site ctx] is control
    passing through the macro expanded at call site [site]. *)
Inductive Call : Type :=
| CallSet (logger : Logger)
| CallLog (context : string)
| CallOnce (site : nat) (context : string).

Section Header.
Context {G : Type} `{Extern G}.

(** Lines 280-282: [static bool logFlag = LogAPIUsageFakeReturn(...)].
    The initialiser runs the first time control passes through the
    declaration; later passes skip it. *)
Definition C10_LOG_API_USAGE_ONCE
    (site : nat) (context : string) (st : State G) : State G :=
  match statics st !! site with
  | Some _ => st
  | None =>
      let (b, g) := LogAPIUsageFakeReturn context (global st) in
      {| statics := <[site := b]> (statics st); global := g |}
  end.

(** The current value of the flag of a call site (zero-initialised, hence
    [false], before its dynamic initialisation). *)
Definition logFlag (site : nat) (st : State G) : bool :=
  default false (statics st !! site).

Definition exec (c : Call) (st : State G) : State G :=
  match c with
  | CallSet logger =>
      {| statics := statics st; global := SetAPIUsageLogger logger (global st) |}
  | CallLog context =>
      {| statics := statics st; global := LogAPIUsage context (global st) |}
  | CallOnce site context => C10_LOG_API_USAGE_ONCE site context st
  end.

Fixpoint run (cs : list Call) (st : State G) : State G :=
  match cs with
  | [] => st
  | c :: cs' => run cs' (exec c st)
  end.

End Header.

(** Modelled from the spec: the state behind [SetAPIUsageLogger] and
    [LogAPIUsage] (Logging.cpp) is missing.  Section 3, LoggerRegistry: the
    currently registered usage logger; next to it the model keeps the
    sequence of logger invocations made so far. *)
Record Registry : Type := {
  usage_logger : Logger;
  invocations : list (Logger * string)
}.

(** Modelled from the spec: the body of [SetAPIUsageLogger]
    (Logging.cpp) is missing.  Section 4.5: it replaces the current value
    of the slot. *)
Definition spec_SetAPIUsageLogger (logger : Logger) (r : Registry) : Registry :=
  {| usage_logger := logger; invocations := invocations r |}.

(** Modelled from the spec: the body of [LogAPIUsage] (Logging.cpp) is
    missing.  Section 4.4: it invokes the currently registered usage logger
    with the context, unconditionally. *)
Definition spec_LogAPIUsage (context : string) (r : Registry) : Registry :=
  {| usage_logger := usage_logger r;
     invocations := invocations r ++ [(usage_logger r, context)] |}.

(** Modelled from the spec: the body of [detail::LogAPIUsageFakeReturn]
    (Logging.cpp) is missing.  Sections 3 and 4.4: the one-shot path
    invokes the registered logger with the context, and the flag of the
    call site becomes [true]. *)
Definition spec_LogAPIUsageFakeReturn (context : string) (r : Registry)
  : bool * Registry :=
  (true, spec_LogAPIUsage context r).

(** Modelled from the spec: the three out-of-line functions as sections
    4.4 and 4.5 describe them. *)
#[export] Instance spec_usage : Extern Registry := {|
  SetAPIUsageLogger := spec_SetAPIUsageLogger;
  LogAPIUsage := spec_LogAPIUsage;
  LogAPIUsageFakeReturn := spec_LogAPIUsageFakeReturn
|}.

(** Modelled from the spec: the registry at process start (section 3),
    with the no-op default logger and nothing logged yet. *)
Definition initial_registry : Registry :=
  {| usage_logger := NoOp; invocations := [] |}.

(** Calls that leave the registered logger alone. *)
Definition keeps_logger (c : Call) : bool :=
  match c with
  | CallSet _ => false
  | CallLog _ | CallOnce _ _ => true
  end.

(** A process in which logger 1 is registered, one event has been logged
    and no call site has fired. *)
Definition example_registry : Registry :=
  {| usage_logger := UserLogger 1;
     invocations := [(UserLogger 1, "startup")] |}.

Definition example_state : State Registry :=
  {| statics := ∅; global := example_registry |}.

End Usage.

(** ** Several threads at one call site *)

Module Race.
Import Usage.

(** State of the initialisation of a block-scope static with a dynamic
    initialiser ([stmt.dcl]): not yet attempted, being performed by some
    thread, or complete. *)
Inductive Guard : Type := NotStarted | InProgress | Complete.

(** Where a thread is: about to pass through the declaration, inside the
    initialiser (the call of [LogAPIUsageFakeReturn]), or past it. *)
Inductive Pc : Type := AtSite | InInit | Past.

Record Config (G : Type) : Type := {
  guard : Guard;
  flag : bool;
  pcs : list Pc;
  global : G
}.
Arguments guard {G} _.
Arguments flag {G} _.
Arguments pcs {G} _.
Arguments global {G} _.

Section Header.
Context {G : Type} `{Extern G}.

(** One step of thread [i] through lines 280-282; [None] when the thread
    cannot move.  A thread that finds the initialisation in progress waits
    for its completion, so it has no step until the guard is [Complete].
    The initialiser is one that returns normally, as everywhere in
    [Usage]. *)
Definition step (context : string) (i : nat) (c : Config G)
  : option (Config G) :=
  match pcs c !! i with
  | Some AtSite =>
      match guard c with
      | NotStarted =>
          Some {| guard := InProgress; flag := flag c;
                  pcs := <[i := InInit]> (pcs c); global := global c |}
      | InProgress => None
      | Complete =>
          Some {| guard := Complete; flag := flag c;
                  pcs := <[i := Past]> (pcs c); global := global c |}
      end
  | Some InInit =>
      let (b, g) := LogAPIUsageFakeReturn context (global c) in
      Some {| guard := Complete; flag := b;
              pcs := <[i := Past]> (pcs c); global := g |}
  | Some Past | None => None
  end.

(** [n] threads arrive at a call site that no thread has passed yet. *)
Definition init (n : nat) (g : G) : Config G :=
  {| guard := NotStarted; flag := false; pcs := replicate n AtSite;
     global := g |}.

(** Some thread takes a step. *)
Definition sched (context : string) (c c' : Config G) : Prop :=
  exists i, step context i c = Some c'.

(** Thread [i] is at the call site and cannot proceed. *)
Definition blocked (context : string) (i : nat) (c : Config G) : Prop :=
  pcs c !! i = Some AtSite /\ step context i c = None.

(** No thread can take a step. *)
Definition terminal (context : string) (c : Config G) : Prop :=
  forall i, step context i c = None.

(** Follow a schedule, a list of thread ids; a thread that cannot move
    when it is scheduled leaves the configuration as it is. *)
Fixpoint follow (context : string) (schedule : list nat) (c : Config G)
  : Config G :=
  match schedule with
  | [] => c
  | i :: rest =>
      match step context i c with
      | Some c' => follow context rest c'
      | None => follow context rest c
      end
  end.

(** The number of steps actually taken along a schedule. *)
Fixpoint moves (context : string) (schedule : list nat) (c : Config G)
  : nat :=
  match schedule with
  | [] => 0
  | i :: rest =>
      match step context i c with
      | Some c' => S (moves context rest c')
      | None => moves context rest c
      end
  end.

(** The property that no caller ever waits: whatever happened before, a
    thread at the call site can proceed at once. *)
Definition never_waits (context : string) (n : nat) (g : G) : Prop :=
  forall schedule i,
    let c := follow context schedule (init n g) in
    pcs c !! i = Some AtSite -> is_Some (step context i c).

(** Steps a thread still has to take, and their sum over all threads. *)
Definition rank (p : Pc) : nat :=
  match p with
  | AtSite => 2
  | InInit => 1
  | Past => 0
  end.

Definition remaining (c : Config G) : nat := sum_list (map rank (pcs c)).

(** What holds of every configuration reached from [init n g]: the
    initialiser has been entered by at most one thread and has run at most
    once, on the state [g]. *)
Definition inv (context : string) (n : nat) (g : G) (c : Config G) : Prop :=
  match guard c with
  | NotStarted => pcs c = replicate n AtSite /\ global c = g
  | InProgress =>
      (exists i, i < n /\ pcs c = <[i := InInit]> (replicate n AtSite)) /\
      global c = g
  | Complete =>
      length (pcs c) = n /\ Forall (fun p => p <> InInit) (pcs c) /\
      global c = snd (LogAPIUsageFakeReturn context g) /\
      flag c = fst (LogAPIUsageFakeReturn context g)
  end.

End Header.

End Race.

(** ** DDPLoggingData (lines 293-357) *)

Module DDP.

(** [-1.0] as an IEEE-754 binary32 value. *)
Definition float32_of_Z (z : Z) : spec_float :=
  binary_normalize 24 128 z 0 false.

Record DDPLoggingData : Type := {
  world_size : Z;
  rank : Z;
  module_name : string;
  device_ids : list Z;
  output_device : Z;
  backend_name : string;
  dtype : string;
  total_parameter_size_bytes : Z;
  num_parameter_tensors : Z;
  bucket_sizes : list Z;
  master_port : string;
  master_addr : string;
  cuda_visible_devices : string;
  gloo_socket_ifname : string;
  gloo_device_transport : string;
  nccl_socket_ifname : string;
  nccl_blocking_wait : string;
  nccl_debug : string;
  nccl_nthreads : string;
  nccl_ib_timeout : string;
  broadcast_buffers : bool;
  bucket_cap_mb : spec_float;
  find_unused_parameters : bool;
  gradient_as_bucket_view : bool;
  iteration : Z;
  unused_parameter_size : Z;
  has_rebuilt_buckets : bool;
  rebuilt_bucket_sizes : list Z;
  avg_forward_compute_time : Z;
  avg_backward_compute_time : Z;
  avg_backward_comm_time : Z;
  avg_backward_compute_comm_overlap_time : Z
}.

(** The default member initialisers: the value of [DDPLoggingData()]. *)
Definition default_DDPLoggingData : DDPLoggingData := {|
  world_size := -1;
  rank := -1;
  module_name := "";
  device_ids := [];
  output_device := -1;
  backend_name := "";
  dtype := "";
  total_parameter_size_bytes := -1;
  num_parameter_tensors := -1;
  bucket_sizes := [];
  master_port := "";
  master_addr := "";
  cuda_visible_devices := "";
  gloo_socket_ifname := "";
  gloo_device_transport := "";
  nccl_socket_ifname := "";
  nccl_blocking_wait := "";
  nccl_debug := "";
  nccl_nthreads := "";
  nccl_ib_timeout := "";
  broadcast_buffers := false;
  bucket_cap_mb := float32_of_Z (-1);
  find_unused_parameters := false;
  gradient_as_bucket_view := false;
  iteration := -1;
  unused_parameter_size := 0;
  has_rebuilt_buckets := false;
  rebuilt_bucket_sizes := [];
  avg_forward_compute_time := 0;
  avg_backward_compute_time := 0;
  avg_backward_comm_time := 0;
  avg_backward_compute_comm_overlap_time := 0
|}.

End DDP.

(** ** Recording the calls into the logging library *)

Module Recording.
Import Usage.

(** A call of one of the three functions declared on lines 285-286 and
    364, with its argument. *)
Inductive LibCall : Type :=
| LibSet (logger : Logger)
| LibLog (context : string)
| LibFake (context : string).

(** An implementation of the declared functions that does nothing but
    record, in order, that it was called. *)
#[export] Instance recorder : Extern (list LibCall) := {|
  SetAPIUsageLogger := fun logger t => (t ++ [LibSet logger])%list;
  LogAPIUsage := fun context t => (t ++ [LibLog context])%list;
  LogAPIUsageFakeReturn :=
    fun context t => (true, (t ++ [LibFake context])%list)
|}.

(** The calls that a program makes into the library when it starts with
    the call-site flags of [st]. *)
Definition record {G : Type} (cs : list Call) (st : State G) : list LibCall :=
  global (run cs {| statics := statics st; global := [] |}).

(** Performing recorded calls on an implementation. *)
Definition call_lib `{Extern G} (l : LibCall) (g : G) : G :=
  match l with
  | LibSet logger => SetAPIUsageLogger logger g
  | LibLog context => LogAPIUsage context g
  | LibFake context => snd (LogAPIUsageFakeReturn context g)
  end.

Definition replay `{Extern G} (t : list LibCall) (g : G) : G :=
  foldl (fun g l => call_lib l g) g t.

(** The contexts passed to [LogAPIUsageFakeReturn] and to [LogAPIUsage]. *)
Definition fakes (t : list LibCall) : list string :=
  omap (fun l => match l with LibFake c => Some c | _ => None end) t.

Definition logs (t : list LibCall) : list string :=
  omap (fun l => match l with LibLog c => Some c | _ => None end) t.

(** The contexts of the direct [LogAPIUsage] calls of a program, and the
    call sites of the macro that it passes through. *)
Definition logged (cs : list Call) : list string :=
  omap (fun c => match c with CallLog ctx => Some ctx | _ => None end) cs.

Fixpoint sites (cs : list Call) : gset nat :=
  match cs with
  | [] => ∅
  | CallOnce site _ :: cs' => {[site]} ∪ sites cs'
  | _ :: cs' => sites cs'
  end.

(** A pass through a call site whose flag is already initialised. *)
Definition repeated_pass {G : Type} (st : State G) (c : Call) : bool :=
  match c with
  | CallOnce site _ =>
      match statics st !! site with
      | Some _ => true
      | None => false
      end
  | CallSet _ | CallLog _ => false
  end.

End Recording.

(** ** The one-shot macro when the initialiser may throw *)

Module Throwing.
Import Usage.

(** How a call ended. *)
Inductive Exit : Type := Normal | Exceptional.

(** What a pass through a call site did: it skipped the initialiser, or
    called it. *)
Inductive Event : Type :=
| Skipped
| Called (exit : Exit).

Section Header.
Context {G : Type}.

(** [detail::LogAPIUsageFakeReturn] (line 364; the declaration is not
    [noexcept]): the result [None] stands for an exit by exception, and
    the state is the one the call left behind in either case. *)
Variable initialiser : string -> G -> option bool * G.

(** Lines 280-282.  When the initialiser exits by an exception the
    variable stays uninitialised, the exception leaves the call site, and
    the initialisation is attempted again the next time control passes
    through the declaration. *)
Definition C10_LOG_API_USAGE_ONCE
    (site : nat) (context : string) (st : State G) : Event * State G :=
  match statics st !! site with
  | Some _ => (Skipped, st)
  | None =>
      match initialiser context (global st) with
      | (Some b, g) =>
          (Called Normal,
           {| statics := <[site := b]> (statics st); global := g |})
      | (None, g) =>
          (Called Exceptional, {| statics := statics st; global := g |})
      end
  end.

(** A step of a program: a pass through a call site, whose exception, if
    any, is caught by the caller, or other code acting on the state of
    the library. *)
Inductive Step : Type :=
| Pass (site : nat) (context : string)
| Other (f : G -> G).

(** Run a program; the result lists, for each pass, its call site and
    what the pass did. *)
Fixpoint run (prog : list Step) (st : State G)
  : list (nat * Event) * State G :=
  match prog with
  | [] => ([], st)
  | Pass site context :: rest =>
      let (ev, st1) := C10_LOG_API_USAGE_ONCE site context st in
      let (evs, st2) := run rest st1 in
      ((site, ev) :: evs, st2)
  | Other f :: rest =>
      run rest {| statics := statics st; global := f (global st) |}
  end.

End Header.





(** An initialiser that returns normally, from the declaration of
    [Usage]. *)
Definition returning `{Extern G} (context : string) (g : G)
  : option bool * G :=
  let (b, g') := LogAPIUsageFakeReturn context g in (Some b, g').

(** An initialiser that follows a script: each call takes the next entry
    as its result, and returns [true] once the script is used up. *)
Definition scripted (context : string) (script : list (option bool))
  : option bool * list (option bool) :=
  match script with
  | [] => (Some true, [])
  | r :: rest => (r, rest)
  end.

End Throwing.

(** * Properties *)

(** ** Message construction *)

Section MessageFacts.
Import Enforce.

Lemma concat_cons (x : string) (xs : list string) :
  String.concat "" (x :: xs) = x ++ String.concat "" xs.
Proof.
  destruct xs as [|y ys]; simpl; [|reflexivity].
  induction x as [|a x IH]; [reflexivity|].
  change (String a x = String a (x ++ "")). now f_equal.
Qed.

Lemma concat_args_cons (a : Arg) (args : list Arg) :
  concat_args (a :: args) = render_arg a ++ concat_args args.
Proof. unfold concat_args. simpl map. apply concat_cons. Qed.

(** Converting the result of the modelled [c10::str] to a string gives
    the concatenation, also for the empty pack. *)
Lemma msg_text_spec_str (args : list Arg) :
  msg_text (spec_str args) = concat_args args.
Proof. destruct args; reflexivity. Qed.

(** With the modelled out-of-line functions every overload of
    [ThrowEnforceNotMet] builds the same error from the message text. *)
Lemma ThrowEnforceNotMet_spec file line condition (msg : Msg) caller :
  ThrowEnforceNotMet file line condition msg caller =
  spec_throw InvariantViolation file line condition (msg_text msg) caller.
Proof. destruct msg; reflexivity. Qed.

Lemma ThrowEnforceFiniteNotMet_spec file line condition (msg : Msg) caller :
  ThrowEnforceFiniteNotMet file line condition msg caller =
  spec_throw NonFiniteValue file line condition (msg_text msg) caller.
Proof. destruct msg; reflexivity. Qed.

Lemma enforceFailMsgImpl_spec {T1 T2 : Type} `{Printable T1, Printable T2}
    (x : T1) (y : T2) (args : list Arg) :
  enforceFailMsgImpl x y args =
  render x ++ " vs " ++ render y ++
    match args with
    | [] => ""
    | _ => ". " ++ concat_args args
    end.
Proof.
  unfold enforceFailMsgImpl. destruct args as [|a args].
  - rewrite msg_text_spec_str, !concat_args_cons. reflexivity.
  - rewrite msg_text_spec_str. simpl app. rewrite !concat_args_cons.
    reflexivity.
Qed.

End MessageFacts.

(** ** The enforcement macros *)

Section EnforceFacts.
Import Enforce.

(** C1. [CAFFE_ENFORCE] on a true condition returns without raising; on a
    false condition it raises an error of kind InvariantViolation that
    carries the call site, exactly the condition text and exactly the
    message built from the arguments passed. *)
Theorem CAFFE_ENFORCE_raises_iff_false
    (file : string) (line : Z) (condition : bool) (condition_src : string)
    (args : list Arg) :
  CAFFE_ENFORCE file line condition condition_src args =
  if condition
  then Returned
  else Raised {| kind := InvariantViolation;
                 location := {| file := file; line := line |};
                 condition_text := condition_src;
                 message := concat_args args;
                 caller := None |}.
Proof.
  unfold CAFFE_ENFORCE. destruct condition; simpl; [reflexivity|].
  rewrite ThrowEnforceNotMet_spec. simpl c10_str.
  rewrite msg_text_spec_str. reflexivity.
Qed.

(** C6. For the same false condition, call site and message, the error
    raised by [CAFFE_ENFORCE_FINITE] and the one raised by [CAFFE_ENFORCE]
    have different kinds, and agree in every other field. *)
Theorem enforce_finite_distinguishable
    (file : string) (line : Z) (condition_src : string) (args : list Arg) :
  exists e ef,
    CAFFE_ENFORCE file line false condition_src args = Raised e /\
    CAFFE_ENFORCE_FINITE file line false condition_src args = Raised ef /\
    kind e = InvariantViolation /\ kind ef = NonFiniteValue /\
    kind e <> kind ef /\
    location e = location ef /\ condition_text e = condition_text ef /\
    message e = message ef /\ caller e = caller ef.
Proof.
  eexists _, _. unfold CAFFE_ENFORCE, CAFFE_ENFORCE_FINITE. simpl negb. cbv iota.
  rewrite ThrowEnforceNotMet_spec, ThrowEnforceFiniteNotMet_spec.
  repeat split; simpl; discriminate.
Qed.

(** C8. [CAFFE_THROW] raises on every invocation, and the error carries
    the call site, the message built from the arguments, and the empty
    condition text. *)
Theorem CAFFE_THROW_always_raises
    (file : string) (line : Z) (args : list Arg) :
  exists e,
    CAFFE_THROW file line args = Raised e /\
    location e = {| file := file; line := line |} /\
    condition_text e = "" /\
    message e = concat_args args.
Proof.
  eexists. unfold CAFFE_THROW. rewrite ThrowEnforceNotMet_spec.
  simpl c10_str. rewrite msg_text_spec_str. repeat split.
Qed.

(** Whatever the out-of-line functions do, [CAFFE_THROW] raises what a
    failed [CAFFE_ENFORCE] with the empty condition text raises: the header
    has no separate error kind for the unconditional failure. *)
Remark CAFFE_THROW_is_failed_enforce `{Extern}
    (file : string) (line : Z) (args : list Arg) :
  CAFFE_THROW file line args = CAFFE_ENFORCE file line false "" args.
Proof. reflexivity. Qed.

(** C9. For every implementation of the out-of-line overloads, and for
    both [ThrowEnforceNotMet] and [ThrowEnforceFiniteNotMet]: raising with
    the [CompileTimeEmptyString] sentinel gives the same error as raising
    with the explicit empty string. *)
Theorem sentinel_same_as_empty_string `{Extern}
    (file : string) (line : Z) (condition : string) (caller : option Z) :
  ThrowEnforceNotMet file line condition MsgEmpty caller =
    ThrowEnforceNotMet file line condition (MsgCStr "") caller /\
  ThrowEnforceFiniteNotMet file line condition MsgEmpty caller =
    ThrowEnforceFiniteNotMet file line condition (MsgCStr "") caller.
Proof. split; reflexivity. Qed.

(** With the modelled out-of-line functions the sentinel also agrees with
    the [std::string] overload at the empty string, and the error it
    raises has the empty message. *)
Lemma sentinel_empty_message
    (file : string) (line : Z) (condition : string) (caller : option Z) :
  ThrowEnforceNotMet file line condition MsgEmpty caller =
    ThrowEnforceNotMet file line condition (MsgString "") caller /\
  ThrowEnforceFiniteNotMet file line condition MsgEmpty caller =
    ThrowEnforceFiniteNotMet file line condition (MsgString "") caller /\
  message (ThrowEnforceNotMet file line condition MsgEmpty caller) = "" /\
  message (ThrowEnforceFiniteNotMet file line condition MsgEmpty caller) = "".
Proof. repeat split. Qed.

End EnforceFacts.

(** ** Comparison diagnostics *)

Section ComparisonFacts.
Import Enforce.

(** The state after the macro is the state after the two operand
    expressions, each run once, in the order the call evaluated them;
    raising does not undo or repeat their effects. *)
Lemma THAT_IMPL_final_state `{Extern} {W T1 T2 : Type}
    `{Printable T1, Printable T2, Comparable T1 T2}
    (file : string) (line : Z) (order : ArgOrder) (op : CmpOp)
    (lhs : Expr W T1) (rhs : Expr W T2) (expr : string) (args : list Arg)
    (w : W) :
  snd (CAFFE_ENFORCE_THAT_IMPL file line order op lhs rhs expr args w) =
  match order with
  | LhsFirst => snd (rhs (snd (lhs w)))
  | RhsFirst => snd (lhs (snd (rhs w)))
  end.
Proof.
  unfold CAFFE_ENFORCE_THAT_IMPL. destruct order.
  - destruct (lhs w) as [l w1]. simpl. destruct (rhs w1) as [r w2]. reflexivity.
  - destruct (rhs w) as [r w1]. simpl. destruct (lhs w1) as [l w2]. reflexivity.
Qed.

(** C2. For every implementation of the out-of-line functions, every
    comparison operator, both evaluation orders, any extra arguments and
    any side-effecting operand expressions: [CAFFE_ENFORCE_THAT_IMPL], and
    with it [CAFFE_ENFORCE_BINARY_OP] and the EQ/NE/LE/LT/GE/GT wrappers,
    advances the evaluation counter of each operand by exactly one,
    whether the comparison passes or fails. *)
Theorem operands_evaluated_exactly_once `{Extern} {St T1 T2 : Type}
    `{Printable T1, Printable T2, Comparable T1 T2}
    (file : string) (line : Z) (order : ArgOrder) (op : CmpOp)
    (x : Operand St T1) (y : Operand St T2) (expr : string)
    (args : list Arg) (s : St) (k : Counters) :
  let once := {| lhs_evals := S (lhs_evals k);
                 rhs_evals := S (rhs_evals k) |} in
  let x' := {| src := src x; eval := counted_lhs (eval x) |} in
  let y' := {| src := src y; eval := counted_rhs (eval y) |} in
  snd (snd (CAFFE_ENFORCE_THAT_IMPL file line order op
              (eval x') (eval y') expr args (s, k))) = once /\
  snd (snd (CAFFE_ENFORCE_BINARY_OP file line order op x' y' args (s, k)))
    = once.
Proof.
  intros once x' y'. unfold CAFFE_ENFORCE_BINARY_OP.
  rewrite !THAT_IMPL_final_state. subst x' y'. cbn [eval].
  unfold counted_lhs, counted_rhs.
  destruct order; cbn [fst snd].
  - destruct (eval x s) as [l s1]. cbn [fst snd].
    destruct (eval y s1) as [r s2]. split; reflexivity.
  - destruct (eval y s) as [r s1]. cbn [fst snd].
    destruct (eval x s1) as [l s2]. split; reflexivity.
Qed.

(** C4. For every operator and every pair of operand values: if the
    comparison holds the macro returns without raising; otherwise it
    raises through [ThrowEnforceNotMet] with the expression text as
    condition text and the message [lhs vs rhs], followed by [". "] and the
    rendered extra arguments exactly when there are extra arguments. *)
Theorem comparison_outcome {W T1 T2 : Type}
    `{Printable T1, Printable T2, Comparable T1 T2}
    (file : string) (line : Z) (order : ArgOrder) (op : CmpOp)
    (l : T1) (r : T2) (expr : string) (extra : list Arg) (w : W) :
  CAFFE_ENFORCE_THAT_IMPL file line order op (pure l) (pure r) expr extra w =
  (if apply_op op l r
   then Returned
   else Raised {| kind := InvariantViolation;
                  location := {| file := file; line := line |};
                  condition_text := expr;
                  message :=
                    render l ++ " vs " ++ render r ++
                      match extra with
                      | [] => ""
                      | _ => ". " ++ concat_args extra
                      end;
                  caller := None |},
   w).
Proof.
  unfold CAFFE_ENFORCE_THAT_IMPL, pure.
  destruct order; destruct (apply_op op l r); cbn [negb]; try reflexivity;
    rewrite ThrowEnforceNotMet_spec; cbn [msg_text];
    rewrite enforceFailMsgImpl_spec; reflexivity.
Qed.

(** The wrappers pass the stringified operands and operator as the
    expression text. *)
Lemma binary_op_outcome {W T1 T2 : Type}
    `{Printable T1, Printable T2, Comparable T1 T2}
    (file : string) (line : Z) (order : ArgOrder) (op : CmpOp)
    (xs ys : string) (l : T1) (r : T2) (extra : list Arg) (w : W) :
  CAFFE_ENFORCE_BINARY_OP file line order op
    {| src := xs; eval := pure l |} {| src := ys; eval := pure r |} extra w =
  CAFFE_ENFORCE_THAT_IMPL file line order op (pure l) (pure r)
    (xs ++ " " ++ op_token op ++ " " ++ ys) extra w.
Proof. reflexivity. Qed.

Example compare_eq_3_4 :
  CAFFE_ENFORCE_EQ "f.cc" 7 LhsFirst
    {| src := "x"; eval := pure 3%Z |} {| src := "y"; eval := pure 4%Z |}
    [] tt =
  (Raised {| kind := InvariantViolation;
             location := {| file := "f.cc"; line := 7 |};
             condition_text := "x == y";
             message := "3 vs 4";
             caller := None |}, tt).
Proof. reflexivity. Qed.

Example compare_eq_3_4_extra :
  fst (CAFFE_ENFORCE_EQ "f.cc" 7 RhsFirst
         {| src := "x"; eval := pure 3%Z |} {| src := "y"; eval := pure 4%Z |}
         [arg "dim "; arg 2%Z] tt) =
  Raised {| kind := InvariantViolation;
            location := {| file := "f.cc"; line := 7 |};
            condition_text := "x == y";
            message := "3 vs 4. dim 2";
            caller := None |}.
Proof. reflexivity. Qed.

Example compare_le_5_5 :
  fst (CAFFE_ENFORCE_LE "f.cc" 8 LhsFirst
         {| src := "a"; eval := pure 5%Z |} {| src := "b"; eval := pure 5%Z |}
         [] tt) = Returned.
Proof. reflexivity. Qed.

End ComparisonFacts.

(** ** DDPLoggingData *)

Section DDPFacts.
Import DDP.

(** C10. A default-constructed [DDPLoggingData] has -1 in world_size,
    rank, output_device, total_parameter_size_bytes,
    num_parameter_tensors and iteration, -1.0 in bucket_cap_mb, the empty
    string in every string field, the empty vector in every vector field,
    false in every boolean field, and 0 in unused_parameter_size and the
    four avg_* fields. *)
Theorem default_DDPLoggingData_fields :
  let d := default_DDPLoggingData in
  (world_size d = (-1)%Z /\ rank d = (-1)%Z /\ output_device d = (-1)%Z /\
   total_parameter_size_bytes d = (-1)%Z /\
   num_parameter_tensors d = (-1)%Z /\ iteration d = (-1)%Z) /\
  (bucket_cap_mb d = S754_finite true 8388608 (-23) /\
   bucket_cap_mb d = SFopp (float32_of_Z 1)) /\
  (module_name d = "" /\ backend_name d = "" /\ dtype d = "" /\
   master_port d = "" /\ master_addr d = "" /\ cuda_visible_devices d = "" /\
   gloo_socket_ifname d = "" /\ gloo_device_transport d = "" /\
   nccl_socket_ifname d = "" /\ nccl_blocking_wait d = "" /\
   nccl_debug d = "" /\ nccl_nthreads d = "" /\ nccl_ib_timeout d = "") /\
  (device_ids d = [] /\ bucket_sizes d = [] /\ rebuilt_bucket_sizes d = []) /\
  (broadcast_buffers d = false /\ find_unused_parameters d = false /\
   gradient_as_bucket_view d = false /\ has_rebuilt_buckets d = false) /\
  (unused_parameter_size d = 0%Z /\ avg_forward_compute_time d = 0%Z /\
   avg_backward_compute_time d = 0%Z /\ avg_backward_comm_time d = 0%Z /\
   avg_backward_compute_comm_overlap_time d = 0%Z).
Proof. vm_compute. repeat split. Qed.

End DDPFacts.

(** ** One-shot usage logging *)

Section UsageFacts.
Import Usage.

(** First pass through the declaration: the initialiser runs. *)
Lemma once_first `{Extern G} (site : nat) (context : string) (st : State G) :
  statics st !! site = None ->
  C10_LOG_API_USAGE_ONCE site context st =
  {| statics :=
       <[site := fst (LogAPIUsageFakeReturn context (global st))]> (statics st);
     global := snd (LogAPIUsageFakeReturn context (global st)) |}.
Proof.
  intros Hnone. unfold C10_LOG_API_USAGE_ONCE. rewrite Hnone.
  destruct (LogAPIUsageFakeReturn context (global st)). reflexivity.
Qed.

(** Later passes do nothing. *)
Lemma once_again `{Extern G} (site : nat) (context : string) (st : State G) :
  is_Some (statics st !! site) ->
  C10_LOG_API_USAGE_ONCE site context st = st.
Proof.
  intros [b Hb]. unfold C10_LOG_API_USAGE_ONCE. now rewrite Hb.
Qed.

(** An initialised flag keeps its value through every API call. *)
Lemma exec_keeps_static `{Extern G} (c : Call) (site : nat) (b : bool)
    (st : State G) :
  statics st !! site = Some b -> statics (exec c st) !! site = Some b.
Proof.
  intros Hb. destruct c as [logger|context|site' context]; simpl; auto.
  unfold C10_LOG_API_USAGE_ONCE.
  destruct (statics st !! site') eqn:Hs'; [assumption|].
  destruct (LogAPIUsageFakeReturn context (global st)) as [b' g]. simpl.
  rewrite lookup_insert_ne; [assumption|]. intros ->. congruence.
Qed.

Lemma run_keeps_static `{Extern G} (cs : list Call) (site : nat) (b : bool)
    (st : State G) :
  statics st !! site = Some b -> statics (run cs st) !! site = Some b.
Proof.
  revert st. induction cs as [|c cs IH]; intros st Hb; simpl; [assumption|].
  apply IH, exec_keeps_static, Hb.
Qed.

(** Repeated passes through an initialised call site change nothing. *)
Lemma run_once_initialised `{Extern G} (site : nat) (contexts : list string)
    (st : State G) :
  is_Some (statics st !! site) ->
  run (map (CallOnce site) contexts) st = st.
Proof.
  intros Hs. induction contexts as [|c cs IH]; simpl; [reflexivity|].
  rewrite once_again by assumption. exact IH.
Qed.

(** Calls other than [SetAPIUsageLogger] keep the registered logger. *)
Lemma exec_keeps_logger (c : Call) (st : State Registry) :
  keeps_logger c = true ->
  usage_logger (global (exec c st)) = usage_logger (global st).
Proof.
  destruct c as [logger|context|site context]; simpl; try discriminate;
    intros _; [reflexivity|].
  unfold C10_LOG_API_USAGE_ONCE. destruct (statics st !! site); reflexivity.
Qed.

Lemma run_keeps_logger (cs : list Call) (st : State Registry) :
  forallb keeps_logger cs = true ->
  usage_logger (global (run cs st)) = usage_logger (global st).
Proof.
  revert st. induction cs as [|c cs IH]; intros st Hcs; simpl; [reflexivity|].
  simpl in Hcs. apply andb_prop in Hcs as [Hc Hcs].
  rewrite IH by assumption. now apply exec_keeps_logger.
Qed.

(** C3. A call site that has not fired yet is passed any number of times
    (at least once) in sequence: the registered logger is invoked exactly
    once, by the first pass and with the context supplied there; the flag
    of the call site is then true and stays true through every later API
    call. *)
Theorem log_once_fires_once
    (site : nat) (context : string) (later : list string)
    (st : State Registry) :
  statics st !! site = None ->
  let first := exec (CallOnce site context) st in
  let st' := run (map (CallOnce site) (context :: later)) st in
  (invocations (global first) =
     invocations (global st) ++ [(usage_logger (global st), context)])%list /\
  st' = first /\
  logFlag site st' = true /\
  (forall cs : list Call, logFlag site (run cs st') = true).
Proof.
  intros Hnone first st'.
  assert (Hfirst : statics first !! site = Some true).
  { subst first. simpl. rewrite once_first by assumption. simpl.
    apply lookup_insert_eq. }
  assert (Hst' : st' = first).
  { subst st'. simpl. apply run_once_initialised. rewrite Hfirst. eauto. }
  split; [|split; [assumption|split]].
  - subst first. simpl. rewrite once_first by assumption. reflexivity.
  - unfold logFlag. rewrite Hst', Hfirst. reflexivity.
  - intros cs. unfold logFlag.
    rewrite (run_keeps_static cs site true) by (rewrite Hst'; exact Hfirst).
    reflexivity.
Qed.

(** C7. After [SetAPIUsageLogger(L)], and as long as no other logger is
    set, every [LogAPIUsage(ctx)] invokes [L] with [ctx] exactly once and
    invokes nothing else; it does so whatever was logged before and
    whatever the call-site flags are. *)
Theorem log_invokes_current_logger
    (L : Logger) (cs : list Call) (context : string) (st : State Registry) :
  forallb keeps_logger cs = true ->
  let before := run cs (exec (CallSet L) st) in
  let after := exec (CallLog context) before in
  (invocations (global after) =
     invocations (global before) ++ [(L, context)])%list /\
  usage_logger (global after) = L /\
  statics after = statics before.
Proof.
  intros Hcs before after.
  assert (HL : usage_logger (global before) = L).
  { subst before. rewrite run_keeps_logger by assumption. reflexivity. }
  subst after. simpl. rewrite HL. repeat split.
Qed.

Lemma log_once_fires_once_witness :
  statics example_state !! 3 = None /\
  (let first := exec (CallOnce 3 "my_api") example_state in
   let st' :=
     run (map (CallOnce 3) ["my_api"; "my_api"; "my_api"]) example_state in
   (invocations (global first) =
      invocations (global example_state) ++
        [(usage_logger (global example_state), "my_api")])%list /\
   st' = first /\
   logFlag 3 st' = true /\
   (forall cs : list Call, logFlag 3 (run cs st') = true)).
Proof.
  split; [reflexivity|].
  apply (log_once_fires_once 3 "my_api" ["my_api"; "my_api"] example_state).
  reflexivity.
Defined.

Lemma log_invokes_current_logger_witness :
  forallb keeps_logger [CallLog "a"; CallOnce 1 "b"] = true /\
  (let before :=
     run [CallLog "a"; CallOnce 1 "b"]
       (exec (CallSet (UserLogger 2)) example_state) in
   let after := exec (CallLog "ctx") before in
   (invocations (global after) =
      invocations (global before) ++ [(UserLogger 2, "ctx")])%list /\
   usage_logger (global after) = UserLogger 2 /\
   statics after = statics before).
Proof.
  split; [reflexivity|].
  apply (log_invokes_current_logger (UserLogger 2)
           [CallLog "a"; CallOnce 1 "b"] "ctx" example_state).
  reflexivity.
Defined.

(** A thousand passes through one call site log once. *)
Example thousand_passes :
  invocations
    (global (run (map (CallOnce 3) (replicate 1000 "my_api")) example_state))
  = [(UserLogger 1, "startup"); (UserLogger 1, "my_api")].
Proof. vm_compute. reflexivity. Qed.

(** Before any logger is set, [LogAPIUsage] calls the default one. *)
Example default_logger_called :
  invocations (spec_LogAPIUsage "ctx" initial_registry) = [(NoOp, "ctx")].
Proof. reflexivity. Qed.

(** Replacing the logger: the old one is not called again. *)
Example replaced_logger :
  invocations
    (global (run [CallSet (UserLogger 2); CallLog "ctx"] example_state))
  = [(UserLogger 1, "startup"); (UserLogger 2, "ctx")].
Proof. reflexivity. Qed.

End UsageFacts.

(** ** Several threads reaching one call site for the first time *)

Section RaceFacts.
Import Usage Race.

Lemma rank_insert (l : list Pc) (i : nat) (p q : Pc) :
  l !! i = Some p -> rank q < rank p ->
  sum_list (map rank (<[i := q]> l)) < sum_list (map rank l).
Proof.
  revert i. induction l as [|a l IH]; intros [|i] Hi Hlt; simpl in *;
    try discriminate.
  - injection Hi as ->. lia.
  - specialize (IH i Hi Hlt). lia.
Qed.

(** Every step brings some thread closer to the end of the statement. *)
Lemma step_decreases `{Extern G} (context : string) (i : nat)
    (c c' : Config G) :
  step context i c = Some c' -> remaining c' < remaining c.
Proof.
  unfold step, remaining. destruct (pcs c !! i) as [[| |]|] eqn:Hi;
    try discriminate.
  - destruct (guard c); try discriminate; intros [= <-]; simpl;
      eapply rank_insert; eauto; simpl; lia.
  - destruct (LogAPIUsageFakeReturn context (global c)) as [b g].
    intros [= <-]. simpl. eapply rank_insert; eauto; simpl; lia.
Qed.

Lemma moves_bounded `{Extern G} (context : string) (schedule : list nat)
    (c : Config G) :
  moves context schedule c + remaining (follow context schedule c)
    <= remaining c.
Proof.
  revert c. induction schedule as [|i rest IH]; intros c; simpl; [lia|].
  destruct (step context i c) as [c'|] eqn:Hstep; [|apply IH].
  apply step_decreases in Hstep. specialize (IH c'). lia.
Qed.

Lemma remaining_init `{Extern G} (n : nat) (g : G) :
  remaining (init n g) = 2 * n.
Proof.
  unfold remaining, init. simpl. induction n as [|n IH]; simpl; lia.
Qed.

Lemma inv_init `{Extern G} (context : string) (n : nat) (g : G) :
  inv context n g (init n g).
Proof. split; reflexivity. Qed.

Lemma inv_step `{Extern G} (context : string) (n : nat) (g : G) (i : nat)
    (c c' : Config G) :
  inv context n g c -> step context i c = Some c' -> inv context n g c'.
Proof.
  unfold inv, step. intros Hinv.
  destruct (pcs c !! i) as [[| |]|] eqn:Hi; try discriminate.
  - (* the thread is at the declaration *)
    destruct (guard c) eqn:Hg; try discriminate; intros [= <-]; simpl.
    + destruct Hinv as [Hpcs Hglob]. split; [|assumption].
      exists i. rewrite Hpcs in Hi |- *. split; [|reflexivity].
      apply lookup_lt_Some in Hi. now rewrite length_replicate in Hi.
    + destruct Hinv as (Hlen & Hall & Hglob & Hflag).
      rewrite length_insert. repeat split; try assumption.
      apply Forall_insert; [assumption|discriminate].
  - (* the thread is inside the initialiser *)
    destruct (LogAPIUsageFakeReturn context (global c)) as [b g'] eqn:Hcall.
    intros [= <-]. simpl. destruct (guard c) eqn:Hg.
    + destruct Hinv as [Hpcs _]. rewrite Hpcs in Hi.
      apply lookup_replicate in Hi as [? _]. discriminate.
    + destruct Hinv as [(i0 & Hi0 & Hpcs) Hglob].
      assert (i = i0) as ->.
      { destruct (decide (i = i0)) as [|Hne]; [assumption|].
        rewrite Hpcs, list_lookup_insert_ne in Hi by auto.
        apply lookup_replicate in Hi as [? _]. discriminate. }
      rewrite Hpcs, list_insert_insert_eq, length_insert, length_replicate.
      rewrite <- Hglob, Hcall. repeat split.
      apply Forall_insert; [|discriminate].
      apply Forall_replicate. discriminate.
    + destruct Hinv as (_ & Hall & _).
      rewrite Forall_lookup in Hall. now specialize (Hall i InInit Hi).
Qed.

Lemma inv_follow `{Extern G} (context : string) (n : nat) (g : G)
    (schedule : list nat) (c : Config G) :
  inv context n g c -> inv context n g (follow context schedule c).
Proof.
  revert c. induction schedule as [|i rest IH]; intros c Hinv; simpl;
    [assumption|].
  destruct (step context i c) as [c'|] eqn:Hstep; [|now apply IH].
  eapply IH, inv_step; eauto.
Qed.

(** A configuration in which nothing can move has every thread past the
    statement, and the initialiser has run. *)
Lemma inv_terminal `{Extern G} (context : string) (n : nat) (g : G)
    (c : Config G) :
  0 < n -> inv context n g c -> terminal context c ->
  guard c = Complete /\ pcs c = replicate n Past.
Proof.
  unfold inv, terminal, step. intros Hn Hinv Hterm.
  destruct (guard c) eqn:Hg.
  - destruct Hinv as [Hpcs _]. specialize (Hterm 0).
    rewrite Hpcs, lookup_replicate_2 in Hterm by assumption. discriminate.
  - destruct Hinv as [(i & Hi & Hpcs) _]. specialize (Hterm i).
    rewrite Hpcs, list_lookup_insert_eq in Hterm
      by (now rewrite length_replicate).
    destruct (LogAPIUsageFakeReturn context (global c)). discriminate.
  - destruct Hinv as (Hlen & Hall & _). split; [reflexivity|].
    symmetry. apply replicate_as_Forall. split; [assumption|].
    rewrite Forall_lookup in Hall |- *. intros i p Hi.
    specialize (Hterm i). specialize (Hall i p Hi). rewrite Hi in Hterm.
    destruct p; [discriminate|contradiction|reflexivity].
Qed.

(** A thread waits only while another thread is inside the initialiser,
    and that thread can move. *)
Lemma inv_blocked `{Extern G} (context : string) (n : nat) (g : G)
    (c : Config G) (i : nat) :
  inv context n g c -> blocked context i c ->
  guard c = InProgress /\
  exists j, j <> i /\ pcs c !! j = Some InInit /\ is_Some (step context j c).
Proof.
  unfold inv, blocked. intros Hinv [Hi Hstep]. unfold step in Hstep.
  rewrite Hi in Hstep. destruct (guard c) eqn:Hg; try discriminate.
  split; [reflexivity|]. destruct Hinv as [(j & Hj & Hpcs) _].
  assert (Hjj : pcs c !! j = Some InInit).
  { rewrite Hpcs. apply list_lookup_insert_eq. now rewrite length_replicate. }
  exists j. split; [|split; [assumption|]].
  - intros ->. congruence.
  - unfold step. rewrite Hjj.
    destruct (LogAPIUsageFakeReturn context (global c)). eauto.
Qed.

(** The schedules reach exactly the configurations that the step relation
    reaches. *)
Lemma reachable_follow `{Extern G} (context : string) (c c' : Config G) :
  rtc (sched context) c c' <-> exists schedule, c' = follow context schedule c.
Proof.
  split.
  - induction 1 as [c|c c1 c2 [i Hstep] _ [schedule ->]].
    + now exists [].
    + exists (i :: schedule). simpl. now rewrite Hstep.
  - intros [schedule ->]. revert c.
    induction schedule as [|i rest IH]; intros c; simpl; [constructor|].
    destruct (step context i c) as [c1|] eqn:Hstep; [|apply IH].
    eapply rtc_l; [exists i; exact Hstep|apply IH].
Qed.

(** From every configuration the threads can be scheduled until none of
    them can move. *)
Lemma can_finish `{Extern G} (context : string) (c : Config G) :
  exists rest, terminal context (follow context rest c).
Proof.
  remember (remaining c) as m eqn:Hm. revert c Hm.
  induction m as [m IH] using lt_wf_ind. intros c ->.
  destruct (decide (Exists (fun i => is_Some (step context i c))
                      (seq 0 (length (pcs c))))) as [Hex|Hnone].
  - apply Exists_exists in Hex as (i & _ & [c' Hstep]).
    destruct (IH (remaining c') (step_decreases _ _ _ _ Hstep) c' eq_refl)
      as [rest Hrest].
    exists (i :: rest). simpl. now rewrite Hstep.
  - exists []. simpl. intros i.
    destruct (step context i c) as [c'|] eqn:Hstep; [|reflexivity].
    exfalso. apply Hnone, Exists_exists. exists i. split; [|eauto].
    apply elem_of_seq. split; [lia|]. simpl.
    unfold step in Hstep. destruct (pcs c !! i) eqn:Hi; [|discriminate].
    now apply lookup_lt_Some in Hi.
Qed.

(** No thread is past the call site before the initialiser has
    completed. *)
Lemma inv_past `{Extern G} (context : string) (n : nat) (g : G)
    (c : Config G) (i : nat) :
  inv context n g c -> pcs c !! i = Some Past ->
  guard c = Complete /\
  global c = snd (LogAPIUsageFakeReturn context g) /\
  flag c = fst (LogAPIUsageFakeReturn context g).
Proof.
  unfold inv. intros Hinv Hi. destruct (guard c) eqn:Hg.
  - destruct Hinv as [Hpcs _]. rewrite Hpcs in Hi.
    apply lookup_replicate in Hi as [? _]. discriminate.
  - destruct Hinv as [(i0 & Hi0 & Hpcs) _]. rewrite Hpcs in Hi.
    destruct (decide (i0 = i)) as [->|Hne].
    + rewrite list_lookup_insert_eq in Hi
        by (now rewrite length_replicate). discriminate.
    + rewrite list_lookup_insert_ne in Hi by assumption.
      apply lookup_replicate in Hi as [? _]. discriminate.
  - destruct Hinv as (_ & _ & Hglob & Hflag). repeat split; assumption.
Qed.

(** While the initialisation is in progress a thread at the call site has
    no step. *)
Lemma in_progress_blocks `{Extern G} (context : string) (c : Config G)
    (i : nat) :
  guard c = InProgress -> pcs c !! i = Some AtSite -> blocked context i c.
Proof.
  intros Hg Hi. split; [assumption|]. unfold step. now rewrite Hi, Hg.
Qed.

(** When thread [w] is the first to move, every other thread waits. *)
Lemma winner_blocks_others `{Extern G} (context : string) (n : nat) (g : G)
    (w i : nat) :
  w < n -> i < n -> i <> w ->
  blocked context i (follow context [w] (init n g)).
Proof.
  intros Hw Hi Hne. simpl. unfold step at 1. simpl.
  rewrite lookup_replicate_2 by assumption. simpl.
  apply in_progress_blocks; [reflexivity|]. simpl.
  rewrite list_lookup_insert_ne by auto. now apply lookup_replicate_2.
Qed.

(** C5, as the header has it.  [n] threads reach a call site for the
    first time, under any schedule: the registered logger is invoked at
    most once, and exactly once as soon as the initialisation is complete;
    at most [2 * n] steps are taken, a configuration in which no thread
    can move has all threads past the call site, and such a configuration
    can always be reached; a thread that loses the race does not log, but
    it waits for the winner: while the initialisation is in progress every
    thread at the call site is blocked, whichever thread moves first all
    the others are blocked, no thread is past the call site before the
    logger invocation has finished, and a blocked thread is waiting for
    the one thread inside the initialiser, which can always proceed. *)
Theorem one_shot_under_race
    (context : string) (n : nat) (r : Registry) (schedule : list nat) :
  0 < n ->
  let c := follow context schedule (init n r) in
  let fired := (invocations r ++ [(usage_logger r, context)])%list in
  (invocations (global c) = invocations r \/ invocations (global c) = fired) /\
  (guard c = Complete -> invocations (global c) = fired /\ flag c = true) /\
  moves context schedule (init n r) <= 2 * n /\
  (terminal context c ->
     pcs c = replicate n Past /\ invocations (global c) = fired) /\
  (exists rest, pcs (follow context rest c) = replicate n Past) /\
  (forall i, blocked context i c ->
     guard c = InProgress /\
     exists j, j <> i /\ pcs c !! j = Some InInit /\
               is_Some (step context j c)) /\
  (forall i, guard c = InProgress -> pcs c !! i = Some AtSite ->
     blocked context i c) /\
  (forall i, pcs c !! i = Some Past ->
     guard c = Complete /\ invocations (global c) = fired) /\
  (forall w i, w < n -> i < n -> i <> w ->
     blocked context i (follow context [w] (init n r))).
Proof.
  intros Hn c fired.
  assert (Hinv : inv context n r c) by apply inv_follow, inv_init.
  assert (Hdone : guard c = Complete ->
                  invocations (global c) = fired /\ flag c = true).
  { intros Hg. unfold inv in Hinv. rewrite Hg in Hinv.
    destruct Hinv as (_ & _ & -> & ->). split; reflexivity. }
  split; [|split; [assumption|split; [|split; [|split; [|split;
    [|split; [|split]]]]]]].
  - unfold inv in Hinv. destruct (guard c) eqn:Hg.
    + left. now destruct Hinv as [_ ->].
    + left. now destruct Hinv as [_ ->].
    + right. now apply Hdone.
  - pose proof (moves_bounded context schedule (init n r)) as Hb.
    rewrite remaining_init in Hb. fold c in Hb. lia.
  - intros Hterm. destruct (inv_terminal context n r c Hn Hinv Hterm) as [Hg ->].
    split; [reflexivity|]. now apply Hdone.
  - destruct (can_finish context c) as [rest Hrest]. exists rest.
    apply (inv_terminal context n r); [assumption|now apply inv_follow|assumption].
  - intros i Hblocked. eapply inv_blocked; eauto.
  - intros i Hg Hi. now apply in_progress_blocks.
  - intros i Hi. destruct (inv_past context n r c i Hinv Hi) as (Hg & _).
    split; [assumption|]. now apply Hdone.
  - intros w i Hw Hi Hne. now apply winner_blocks_others.
Qed.

Lemma one_shot_under_race_witness :
  0 < 2 /\
  (let c := follow "my_api" [0; 1; 1; 0; 1] (init 2 example_registry) in
   let fired :=
     (invocations example_registry ++
        [(usage_logger example_registry, "my_api")])%list in
   (invocations (global c) = invocations example_registry \/
    invocations (global c) = fired) /\
   (guard c = Complete -> invocations (global c) = fired /\ flag c = true) /\
   moves "my_api" [0; 1; 1; 0; 1] (init 2 example_registry) <= 2 * 2 /\
   (terminal "my_api" c ->
      pcs c = replicate 2 Past /\ invocations (global c) = fired) /\
   (exists rest, pcs (follow "my_api" rest c) = replicate 2 Past) /\
   (forall i, blocked "my_api" i c ->
      guard c = InProgress /\
      exists j, j <> i /\ pcs c !! j = Some InInit /\
                is_Some (step "my_api" j c)) /\
   (forall i, guard c = InProgress -> pcs c !! i = Some AtSite ->
      blocked "my_api" i c) /\
   (forall i, pcs c !! i = Some Past ->
      guard c = Complete /\ invocations (global c) = fired) /\
   (forall w i, w < 2 -> i < 2 -> i <> w ->
      blocked "my_api" i (follow "my_api" [w] (init 2 example_registry)))).
Proof.
  split; [lia|].
  apply (one_shot_under_race "my_api" 2 example_registry [0; 1; 1; 0; 1]).
  lia.
Defined.

(** Two threads, the first has entered the initialiser: the second is at
    the call site and has no step. *)
Example second_thread_blocked :
  blocked "my_api" 1 (follow "my_api" [0] (init 2 example_registry)).
Proof. split; reflexivity. Qed.

(** C5, as stated, fails: a caller that loses the race while the winner's
    logger call is still running does not return at once. *)
Lemma losing_caller_waits : ~ never_waits "my_api" 2 example_registry.
Proof.
  intros Hnever. destruct (Hnever [0] 1 eq_refl) as [c' Hstep].
  discriminate Hstep.
Qed.

End RaceFacts.

(** * Further properties of the header *)

(** ** Comparison macros: operands with side effects, caller variants *)

Section ComparisonMore.
Import Enforce.

Lemma THAT_IMPL_WITH_CALLER_final_state `{Extern} {W T1 T2 : Type}
    `{Printable T1, Printable T2, Comparable T1 T2}
    (this : Z) (file : string) (line : Z) (order : ArgOrder) (op : CmpOp)
    (lhs : Expr W T1) (rhs : Expr W T2) (expr : string) (args : list Arg)
    (w : W) :
  snd (CAFFE_ENFORCE_THAT_IMPL_WITH_CALLER this file line order op lhs rhs
         expr args w) =
  match order with
  | LhsFirst => snd (rhs (snd (lhs w)))
  | RhsFirst => snd (lhs (snd (rhs w)))
  end.
Proof.
  unfold CAFFE_ENFORCE_THAT_IMPL_WITH_CALLER. destruct order.
  - destruct (lhs w) as [l w1]. simpl. destruct (rhs w1) as [r w2]. reflexivity.
  - destruct (rhs w) as [r w1]. simpl. destruct (lhs w1) as [l w2]. reflexivity.
Qed.

(** X1. The caller variants ([CAFFE_ENFORCE_THAT_IMPL_WITH_CALLER] and
    the [..._WITH_CALLER] wrappers built on it) also evaluate each operand
    exactly once: for every implementation of the out-of-line functions,
    operator, evaluation order and extra arguments, each operand's counter
    advances by one, whether the check passes or raises. *)
Theorem operands_evaluated_once_with_caller `{Extern} {St T1 T2 : Type}
    `{Printable T1, Printable T2, Comparable T1 T2}
    (this : Z) (file : string) (line : Z) (order : ArgOrder) (op : CmpOp)
    (x : Operand St T1) (y : Operand St T2) (expr : string)
    (args : list Arg) (s : St) (k : Counters) :
  let once := {| lhs_evals := S (lhs_evals k);
                 rhs_evals := S (rhs_evals k) |} in
  let x' := {| src := src x; eval := counted_lhs (eval x) |} in
  let y' := {| src := src y; eval := counted_rhs (eval y) |} in
  snd (snd (CAFFE_ENFORCE_THAT_IMPL_WITH_CALLER this file line order op
              (eval x') (eval y') expr args (s, k))) = once /\
  snd (snd (CAFFE_ENFORCE_BINARY_OP_WITH_CALLER this file line order op
              x' y' args (s, k))) = once.
Proof.
  intros once x' y'. unfold CAFFE_ENFORCE_BINARY_OP_WITH_CALLER.
  rewrite !THAT_IMPL_WITH_CALLER_final_state. subst x' y'. cbn [eval].
  unfold counted_lhs, counted_rhs.
  destruct order; cbn [fst snd].
  - destruct (eval x s) as [l s1]. cbn [fst snd].
    destruct (eval y s1) as [r s2]. split; reflexivity.
  - destruct (eval y s) as [r s1]. cbn [fst snd].
    destruct (eval x s1) as [l s2]. split; reflexivity.
Qed.

Lemma THAT_IMPL_ref_prvalues `{Extern} {W T1 T2 : Type}
    `{Printable T1, Printable T2, Comparable T1 T2}
    (file : string) (line : Z) (order : ArgOrder) (op : CmpOp)
    (lhs : Expr W T1) (rhs : Expr W T2) (expr : string) (args : list Arg)
    (w : W) :
  CAFFE_ENFORCE_THAT_IMPL_ref file line order op (prvalue lhs) (prvalue rhs)
    expr args w =
  CAFFE_ENFORCE_THAT_IMPL file line order op lhs rhs expr args w.
Proof.
  unfold CAFFE_ENFORCE_THAT_IMPL_ref, CAFFE_ENFORCE_THAT_IMPL, prvalue.
  destruct order.
  - destruct (lhs w) as [l w1]. destruct (rhs w1) as [r w2]. reflexivity.
  - destruct (rhs w) as [r w1]. destruct (lhs w1) as [l w2]. reflexivity.
Qed.


(** [CAFFE_ENFORCE_EQ(i++, i)] with [i = 0] raises with [0 vs 1] in
    either order. *)
Example post_increment_against_variable (order : ArgOrder) :
  CAFFE_ENFORCE_THAT_IMPL_ref "f.cc" 9 order EQ
    (prvalue post_increment) (variable the_counter) "i++ == i" [] 0%Z =
  (Raised {| kind := InvariantViolation;
             location := {| file := "f.cc"; line := 9 |};
             condition_text := "i++ == i";
             message := "0 vs 1";
             caller := None |}, 1%Z).
Proof. destruct order; reflexivity. Qed.

Lemma append_cancel_l (a b c : string) : a ++ b = a ++ c -> b = c.
Proof.
  induction a as [|ch a IH]; intros Heq; [exact Heq|].
  apply IH. change (String ch (a ++ b) = String ch (a ++ c)) in Heq.
  now injection Heq.
Qed.

(** X4. The condition text that the binary wrappers build identifies the
    operator: for the same two operand texts, different operators give
    different texts. *)
Theorem expr_text_identifies_operator {W T1 T2 : Type}
    (op op' : CmpOp) (x : Operand W T1) (y : Operand W T2) :
  expr_text op x y = expr_text op' x y -> op = op'.
Proof.
  unfold expr_text. intros Heq.
  apply append_cancel_l in Heq. apply (append_cancel_l " ") in Heq.
  destruct op, op'; try reflexivity; vm_compute in Heq; discriminate Heq.
Qed.

Lemma expr_text_identifies_operator_witness :
  expr_text (W := unit) LE {| src := "a"; eval := pure 1%Z |}
    {| src := "b"; eval := pure 2%Z |} =
  expr_text (W := unit) LE {| src := "a"; eval := pure 1%Z |}
    {| src := "b"; eval := pure 2%Z |} /\
  LE = LE.
Proof.
  split; [reflexivity|].
  apply (expr_text_identifies_operator (W := unit) LE LE
           {| src := "a"; eval := pure 1%Z |}
           {| src := "b"; eval := pure 2%Z |}).
  reflexivity.
Defined.

End ComparisonMore.

(** ** One-shot usage logging over whole programs *)

Section UsageMore.
Import Usage Recording.
#[local] Set Warnings "-clear-no-such-hyp".

(** X5. After any sequence of API calls, under every implementation of
    the declared functions whose calls return normally, the call sites
    whose flag is initialised are those that were initialised before
    together with those the program passed through: a flag is set by
    passing its own call site and by nothing else.  (X10 covers
    initialisers that exit by an exception.) *)
Theorem initialised_flags_are_sites_passed `{Extern G}
    (cs : list Call) (st : State G) :
  dom (statics (run cs st)) = dom (statics st) ∪ sites cs.
Proof.
  revert st. induction cs as [|c cs IH]; intros st; simpl.
  - set_solver.
  - rewrite IH. destruct c as [logger|context|site context]; simpl;
      try reflexivity.
    unfold C10_LOG_API_USAGE_ONCE.
    destruct (statics st !! site) as [b|] eqn:Hsite.
    + apply elem_of_dom_2 in Hsite. set_solver.
    + destruct (LogAPIUsageFakeReturn context (global st)) as [b g]. simpl.
      rewrite dom_insert_L. set_solver.
Qed.

(** X6. Passes through call sites whose flags are already initialised
    change nothing, in any number and any order: neither the flags nor the
    state of the logging library, whatever its implementation. *)
Theorem repeated_passes_change_nothing `{Extern G}
    (cs : list Call) (st : State G) :
  forallb (repeated_pass st) cs = true -> run cs st = st.
Proof.
  induction cs as [|c cs IH]; simpl; [reflexivity|].
  intros Hall. apply andb_prop in Hall as [Hc Hcs].
  destruct c as [logger|context|site context]; simpl in Hc; try discriminate.
  simpl. unfold C10_LOG_API_USAGE_ONCE.
  destruct (statics st !! site); [|discriminate]. now apply IH.
Qed.

Lemma repeated_passes_change_nothing_witness :
  forallb (repeated_pass (exec (CallOnce 3 "a") (exec (CallOnce 5 "b") example_state)))
    [CallOnce 5 "b"; CallOnce 3 "c"; CallOnce 5 "d"] = true /\
  run [CallOnce 5 "b"; CallOnce 3 "c"; CallOnce 5 "d"]
    (exec (CallOnce 3 "a") (exec (CallOnce 5 "b") example_state)) =
  exec (CallOnce 3 "a") (exec (CallOnce 5 "b") example_state).
Proof.
  split; [reflexivity|].
  apply (repeated_passes_change_nothing
           [CallOnce 5 "b"; CallOnce 3 "c"; CallOnce 5 "d"]
           (exec (CallOnce 3 "a") (exec (CallOnce 5 "b") example_state))).
  reflexivity.
Defined.

Lemma replay_snoc `{Extern G} (t : list LibCall) (l : LibCall) (g : G) :
  replay (t ++ [l]) g = call_lib l (replay t g).
Proof. unfold replay. now rewrite foldl_app. Qed.

(** Running a program on an implementation and on the recorder in step:
    the implementation's state is the replay of what the recorder holds. *)
Lemma run_replay `{Extern G} (cs : list Call) (st : State G)
    (st' : State (list LibCall)) (g0 : G) :
  (forall site, statics st !! site = None <-> statics st' !! site = None) ->
  global st = replay (global st') g0 ->
  global (run cs st) = replay (global (run cs st')) g0.
Proof.
  revert st st'. induction cs as [|c cs IH]; intros st st' Hflags Hglob;
    simpl; [assumption|].
  apply IH; destruct c as [logger|context|site context]; simpl;
    try assumption; try (now rewrite replay_snoc, <- Hglob).
  - intros site'. unfold C10_LOG_API_USAGE_ONCE.
    destruct (statics st !! site) as [b|] eqn:Hs;
      destruct (statics st' !! site) as [b'|] eqn:Hs'.
    + apply Hflags.
    + apply Hflags in Hs'. congruence.
    + apply Hflags in Hs. congruence.
    + destruct (LogAPIUsageFakeReturn context (global st)) as [b g]. simpl.
      destruct (decide (site = site')) as [->|Hne].
      * rewrite !lookup_insert_eq. split; discriminate.
      * rewrite !lookup_insert_ne by assumption. apply Hflags.
  - unfold C10_LOG_API_USAGE_ONCE.
    destruct (statics st !! site) as [b|] eqn:Hs;
      destruct (statics st' !! site) as [b'|] eqn:Hs'.
    + assumption.
    + apply Hflags in Hs'. congruence.
    + apply Hflags in Hs. congruence.
    + destruct (LogAPIUsageFakeReturn context (global st)) as [b g] eqn:Hcall.
      simpl. rewrite replay_snoc, <- Hglob. simpl. now rewrite Hcall.
Qed.

Lemma fresh_site_split (site : nat) (X D : gset nat) :
  site ∉ D -> ({[site]} ∪ X) ∖ D = {[site]} ∪ X ∖ ({[site]} ∪ D).
Proof.
  intros Hfresh. apply set_eq. intros x.
  rewrite !elem_of_union, !elem_of_difference, !elem_of_union,
    !elem_of_singleton.
  destruct (decide (x = site)); subst; tauto.
Qed.

(** What the recorder holds after a program. *)
Lemma record_counts (cs : list Call) (st : State (list LibCall)) :
  logs (global (run cs st)) = (logs (global st) ++ logged cs)%list /\
  length (fakes (global (run cs st))) =
    length (fakes (global st)) + size (sites cs ∖ dom (statics st)).
Proof.
  revert st. induction cs as [|c cs IH]; intros st; simpl.
  - rewrite app_nil_r. split; [reflexivity|].
    replace (∅ ∖ dom (statics st)) with (∅ : gset nat) by set_solver.
    rewrite size_empty. lia.
  - destruct (IH (exec c st)) as [IHl IHf]. rewrite IHl, IHf. clear IH IHl IHf.
    destruct c as [logger|context|site context]; simpl.
    + unfold logs, fakes, logged. rewrite !omap_app. simpl.
      rewrite !app_nil_r. split; reflexivity.
    + unfold logs, fakes, logged. rewrite !omap_app. simpl.
      rewrite app_nil_r, <- app_assoc. split; reflexivity.
    + unfold C10_LOG_API_USAGE_ONCE.
      destruct (statics st !! site) as [b|] eqn:Hs.
      * split; [reflexivity|]. f_equal. f_equal.
        apply elem_of_dom_2 in Hs. set_solver.
      * simpl. unfold logs, fakes. rewrite !omap_app. simpl.
        rewrite app_nil_r, length_app. simpl. split; [reflexivity|].
        rewrite dom_insert_L. apply not_elem_of_dom in Hs.
        rewrite (fresh_site_split site (sites cs) (dom (statics st)) Hs).
        assert (Hdisj : ({[site]} : gset nat) ##
                          sites cs ∖ ({[site]} ∪ dom (statics st)))
          by set_solver.
        rewrite (size_union _ _ Hdisj), size_singleton. lia.
Qed.

(** X7. For every implementation of the declared functions whose calls
    return normally (X11 covers initialisers that exit by an exception)
    and every program: the library state after the program is what
    results from
    the recorded library calls, made in order; [LogAPIUsage] is called
    once for each direct call, in order and with its context; and
    [LogAPIUsageFakeReturn] is called once for each distinct call site
    that the program passes and whose flag was not initialised before,
    however often and in whatever interleaving the sites are passed. *)
Theorem library_calls_of_program `{Extern G} (cs : list Call) (st : State G) :
  let t := record cs st in
  global (run cs st) = replay t (global st) /\
  logs t = logged cs /\
  length (fakes t) = size (sites cs ∖ dom (statics st)).
Proof.
  intros t. subst t. unfold record. split.
  - apply run_replay; simpl; [tauto|reflexivity].
  - destruct (record_counts cs {| statics := statics st; global := [] |})
      as [Hl Hf]. split; assumption.
Qed.

(** Two call sites with the same context both fire; passing them again
    does not. *)
Example two_sites_same_context :
  record [CallOnce 1 "api"; CallOnce 2 "api"; CallOnce 1 "api";
          CallLog "x"; CallOnce 2 "api"] example_state =
  [LibFake "api"; LibFake "api"; LibLog "x"].
Proof. vm_compute. reflexivity. Qed.

End UsageMore.

(** ** Threads at one call site, for every implementation *)

Section RaceMore.
Import Usage Recording Race.

(** X8. Whatever the schedule and the implementation of the initialiser,
    at most one thread is inside the initialiser of a call site at any
    time, and while one is there the initialisation is marked as in
    progress. *)
Theorem one_thread_in_initialiser `{Extern G}
    (context : string) (n : nat) (g : G) (schedule : list nat) (i j : nat) :
  let c := follow context schedule (init n g) in
  pcs c !! i = Some InInit -> pcs c !! j = Some InInit ->
  i = j /\ guard c = InProgress.
Proof.
  intros c Hi Hj.
  assert (Hinv : inv context n g c) by apply inv_follow, inv_init.
  unfold inv in Hinv. destruct (guard c) eqn:Hg.
  - destruct Hinv as [Hpcs _]. rewrite Hpcs in Hi.
    apply lookup_replicate in Hi as [? _]. discriminate.
  - destruct Hinv as [(i0 & Hi0 & Hpcs) _]. split; [|reflexivity].
    assert (Hat : forall k, pcs c !! k = Some InInit -> k = i0).
    { intros k Hk. destruct (decide (k = i0)) as [|Hne]; [assumption|].
      rewrite Hpcs, list_lookup_insert_ne in Hk by auto.
      apply lookup_replicate in Hk as [? _]. discriminate. }
    rewrite (Hat i Hi), (Hat j Hj). reflexivity.
  - destruct Hinv as (_ & Hall & _). rewrite Forall_lookup in Hall.
    now specialize (Hall i InInit Hi).
Qed.

Lemma one_thread_in_initialiser_witness :
  (let c := follow "my_api" [1; 0; 2] (init 3 ([] : list LibCall)) in
   pcs c !! 1 = Some InInit) /\
  (let c := follow "my_api" [1; 0; 2] (init 3 ([] : list LibCall)) in
   pcs c !! 1 = Some InInit) /\
  (1 = 1 /\
   guard (follow "my_api" [1; 0; 2] (init 3 ([] : list LibCall)))
     = InProgress).
Proof.
  split; [reflexivity|]. split; [reflexivity|].
  apply (one_thread_in_initialiser "my_api" 3 ([] : list LibCall) [1; 0; 2]
           1 1); reflexivity.
Defined.

(** X9. For every schedule and every initialiser that returns normally,
    a thread gets past the call site only after the initialiser has
    completed: if any thread is past it, the initialisation is complete,
    the library state is the one the single run of the initialiser left,
    and the flag holds the value the initialiser returned. *)
Theorem past_call_site_implies_initialised `{Extern G}
    (context : string) (n : nat) (g : G) (schedule : list nat) (i : nat) :
  let c := follow context schedule (init n g) in
  pcs c !! i = Some Past ->
  guard c = Complete /\
  global c = snd (LogAPIUsageFakeReturn context g) /\
  flag c = fst (LogAPIUsageFakeReturn context g).
Proof.
  intros c Hi. apply (inv_past context n g c i); [|assumption].
  apply inv_follow, inv_init.
Qed.

Lemma past_call_site_implies_initialised_witness :
  (let c := follow "my_api" [1; 0; 1; 0] (init 2 ([] : list LibCall)) in
   pcs c !! 0 = Some Past) /\
  (let c := follow "my_api" [1; 0; 1; 0] (init 2 ([] : list LibCall)) in
   guard c = Complete /\
   global c = snd (LogAPIUsageFakeReturn "my_api" ([] : list LibCall)) /\
   flag c = fst (LogAPIUsageFakeReturn "my_api" ([] : list LibCall))).
Proof.
  split; [reflexivity|].
  apply (past_call_site_implies_initialised "my_api" 2 ([] : list LibCall)
           [1; 0; 1; 0] 0).
  reflexivity.
Defined.

End RaceMore.

(** ** The one-shot macro with an initialiser that may throw *)

Section ThrowingFacts.
Import Usage Throwing.
#[local] Set Warnings "-clear-no-such-hyp".

(** With an initialiser that returns normally the macro is the one of
    [Usage], and no pass ends in an exception. *)
Lemma returning_agrees `{Extern G} (site : nat) (context : string)
    (st : State G) :
  snd (Throwing.C10_LOG_API_USAGE_ONCE returning site context st) =
    Usage.C10_LOG_API_USAGE_ONCE site context st /\
  fst (Throwing.C10_LOG_API_USAGE_ONCE returning site context st) <>
    Called Exceptional.
Proof.
  unfold Throwing.C10_LOG_API_USAGE_ONCE, Usage.C10_LOG_API_USAGE_ONCE,
    returning.
  destruct (statics st !! site); [split; [reflexivity|discriminate]|].
  destruct (LogAPIUsageFakeReturn context (global st)) as [b g].
  split; [reflexivity|discriminate].
Qed.



(** An initialiser that throws on its first call: the second pass calls
    it again, the third skips it. *)
Example retried_after_exception :
  run scripted [Pass 7 "api"; Pass 7 "api"; Pass 7 "api"]
    {| statics := ∅; global := [None] |} =
  ([(7, Called Exceptional); (7, Called Normal); (7, Skipped)],
   {| statics := {[7 := true]}; global := [] |}).
Proof. reflexivity. Qed.

End ThrowingFacts.
